(** * space-web: gravity law, fixed-step integrator, registry and broadcast tick

    A shallow embedding of [server.go].  The Go program keeps a map from
    websocket connections to entities, advances every connected entity by one
    semi-implicit Euler step sixty times a second and writes a JSON snapshot to
    every connected session.

    The arithmetic of the program is [float64].  The definitions below are
    written once, over an interface [Float64] of the operations the source
    uses, and read at two instances:
    - [ieee]: Rocq's primitive binary64 floats, round-to-nearest-even, each
      operation rounded on its own (no fused multiply-add), which is what the
      Go compiler emits on amd64;
    - [exact]: the real numbers, that is the same program with rounding
      ignored, where the physical laws of the specification can be stated. *)

From Stdlib Require Import ZArith QArith Qreals Reals Lra Lia Psatz Floats.
From stdpp Require Import gmap strings list fin_maps pretty.

(** ** The arithmetic interface *)

(** [fconst q] is the conversion of an exact untyped Go constant to
    [float64]: Go evaluates constant expressions exactly and rounds once. *)
Class Float64 (F : Type) := {
  fadd : F -> F -> F;
  fmul : F -> F -> F;
  fdiv : F -> F -> F;
  fsqrt : F -> F;
  fltb : F -> F -> bool;
  fconst : Q -> F
}.

Declare Scope f64_scope.
Delimit Scope f64_scope with f64.
Infix "+" := fadd : f64_scope.
Infix "*" := fmul : f64_scope.
Infix "/" := fdiv : f64_scope.

(** ** Constants for simulation (server.go, lines 17-23) *)

Definition G : Q := 1 # 10000.
Definition StarMass : Q := 1000000 # 1.
Definition MinDistance : Q := 10 # 1.
Definition MaxDistance : Q := 100 # 1.
Definition TimeStep : Q := 16 # 1000.

(** ** Data model (server.go, lines 25-41) *)

Record Vector2 (F : Type) := mkVector2 { X : F; Y : F }.
Arguments mkVector2 {F} _ _.
Arguments X {F} _.
Arguments Y {F} _.

Record Entity (F : Type) := mkEntity {
  ID : string;
  Position : Vector2 F;
  Velocity : Vector2 F;
  Connected : bool
}.
Arguments mkEntity {F} _ _ _ _.
Arguments ID {F} _.
Arguments Position {F} _.
Arguments Velocity {F} _.
Arguments Connected {F} _.

(** A [*websocket.Conn] is used by the program only as a map key and as the
    target of a write: it is modelled by its address. *)
Abbreviation Conn := positive.

(** ** The primitive-float instance *)

Module IEEE.

Definition of_Z (z : Z) : float :=
  match z with
  | Z0 => PrimFloat.of_uint63 (Uint63.of_Z 0)
  | Zpos _ => PrimFloat.of_uint63 (Uint63.of_Z z)
  | Zneg p => PrimFloat.opp (PrimFloat.of_uint63 (Uint63.of_Z (Zpos p)))
  end.

(** Numerator and denominator of the constants of this program are far
    below 2^53, so both conversions are exact and the single division
    rounds the rational to the nearest [float64]. *)
Definition of_Q (q : Q) : float :=
  PrimFloat.div (of_Z (Qnum q)) (of_Z (Zpos (Qden q))).

End IEEE.

#[export] Instance ieee : Float64 float := {
  fadd := PrimFloat.add;
  fmul := PrimFloat.mul;
  fdiv := PrimFloat.div;
  fsqrt := PrimFloat.sqrt;
  fltb := PrimFloat.ltb;
  fconst := IEEE.of_Q
}.

(** ** The real-number instance *)

Module Exact.

Definition Rltb (x y : R) : bool := if Rlt_dec x y then true else false.

End Exact.

#[export] Instance exact : Float64 R := {
  fadd := Rplus;
  fmul := Rmult;
  fdiv := Rdiv;
  fsqrt := R_sqrt.sqrt;
  fltb := Exact.Rltb;
  fconst := Q2R
}.

(** ** Physics (server.go, lines 66-78 and 131-145) *)

Section Physics.

Context {F : Type} `{Float64 F}.

Local Open Scope f64_scope.

(** [func gravitationalAccel(pos Vector2) Vector2] *)
Definition gravitationalAccel (pos : Vector2 F) : Vector2 F :=
  let r := fsqrt (X pos * X pos + Y pos * Y pos) in
  let r := if fltb r (fconst (1 # 10)) then fconst (1 # 10) else r in
  let force := fconst (- G * StarMass) / (r * r) in
  let unitX := X pos / r in
  let unitY := Y pos / r in
  {| X := force * unitX; Y := force * unitY |}.

(** The radius after the clamp, that is the value both divisions of
    [gravitationalAccel] divide by (as [r * r] and as [r]). *)
Definition clampedRadius (pos : Vector2 F) : F :=
  let r := fsqrt (X pos * X pos + Y pos * Y pos) in
  if fltb r (fconst (1 # 10)) then fconst (1 # 10) else r.

(** Body of the physics loop for one connected entity (lines 135-142):
    velocity first, then position from the new velocity. *)
Definition integrate (entity : Entity F) : Entity F :=
  let accel := gravitationalAccel (Position entity) in
  let vx := X (Velocity entity) + X accel * fconst TimeStep in
  let vy := Y (Velocity entity) + Y accel * fconst TimeStep in
  let px := X (Position entity) + vx * fconst TimeStep in
  let py := Y (Position entity) + vy * fconst TimeStep in
  {| ID := ID entity;
     Position := {| X := px; Y := py |};
     Velocity := {| X := vx; Y := vy |};
     Connected := Connected entity |}.

End Physics.

(** ** Initial placement (server.go, lines 56-64) *)

(** [math.Cos], [math.Sin] and the constant [math.Pi] converted to
    [float64]. *)
Class Trig (F : Type) := {
  fcos : F -> F;
  fsin : F -> F;
  fpi : F
}.

#[export] Instance exact_trig : Trig R := {
  fcos := cos;
  fsin := sin;
  fpi := PI
}.

Section Placement.

Context {F : Type} `{Float64 F} `{Trig F}.

Local Open Scope f64_scope.

(** [func randomPosition() Vector2].  The two calls of [rand.Float64()]
    are the arguments [u1] and [u2], in the order the source draws them. *)
Definition randomPosition (u1 u2 : F) : Vector2 F :=
  let theta := u1 * fconst (2 # 1) * fpi in
  let r := fconst MinDistance + u2 * fconst (MaxDistance - MinDistance) in
  let x := r * fcos theta in
  let y := r * fsin theta in
  {| X := x; Y := y |}.

End Placement.

(** ** Registry, session handler and broadcast tick (server.go, lines 43-173) *)

(** [clients = make(map[*websocket.Conn]Entity)] *)
Abbreviation Registry F := (gmap positive (Entity F)).

(** [type ClientUpdate struct { Entities []Entity }] *)
Record ClientUpdate (F : Type) := mkClientUpdate { Entities : list (Entity F) }.
Arguments mkClientUpdate {F} _.
Arguments Entities {F} _.

(** What one tick needs from outside the program: the order in which each of
    its three [range clients] loops visits the keys (Go leaves it
    unspecified), and which calls of [conn.WriteMessage] succeed. *)
Record TickEnv := mkTickEnv {
  physicsOrder : list Conn;
  snapshotOrder : list Conn;
  broadcastOrder : list Conn;
  writeOk : Conn -> bool
}.

(** One call [conn.WriteMessage(websocket.TextMessage, data)] and whether
    it returned a nil error. *)
Abbreviation WriteCall Payload := (positive * Payload * bool)%type.

Section Server.

Context {F : Type} `{Float64 F}.

(** [json.Marshal] applied to a [ClientUpdate]; [None] is a non-nil error. *)
Context {Payload : Type}.
Variable Marshal : ClientUpdate F -> option Payload.

(** [entity.Connected = c] on a local copy of an entity. *)
Definition setConnected (entity : Entity F) (c : bool) : Entity F :=
  {| ID := ID entity;
     Position := Position entity;
     Velocity := Velocity entity;
     Connected := c |}.

(** Lines 88-95 of [wsHandler]: the id is the decimal rendering of the
    clock reading [time.Now().UnixNano()], the velocity the zero value. *)
Definition newEntity (now : Z) (pos : Vector2 F) : Entity F :=
  {| ID := pretty now;
     Position := pos;
     Velocity := {| X := fconst 0; Y := fconst 0 |};
     Connected := true |}.

(** Lines 97-100: [clients[conn] = entity] under the lock. *)
Definition register (conn : Conn) (entity : Entity F)
    (clients : Registry F) : Registry F :=
  <[conn := entity]> clients.

(** Lines 102-110, the deferred function, run when the read loop ends. *)
Definition unregister (conn : Conn) (entity : Entity F)
    (clients : Registry F) : Registry F :=
  let entity := setConnected entity false in
  let clients := <[conn := entity]> clients in
  delete conn clients.

(** A [for conn, entity := range clients] loop visits every key once, in
    an order of the runtime's choosing. *)
Definition rangeOrder (order : list Conn) (clients : Registry F) : Prop :=
  NoDup order /\ list_to_set order = dom clients.

(** Lines 131-145, one iteration. *)
Definition physics_body (clients : Registry F) (conn : Conn) : Registry F :=
  match clients !! conn with
  | None => clients
  | Some entity =>
      if negb (Connected entity) then clients
      else <[conn := integrate entity]> clients
  end.

(** Lines 148-151, one iteration. *)
Definition snapshot_body (clients : Registry F)
    (entities : list (Entity F)) (conn : Conn) : list (Entity F) :=
  match clients !! conn with
  | None => entities
  | Some entity => entities ++ [entity]
  end.

(** Lines 161-170, one iteration: the state is the registry and the calls
    of [WriteMessage] made so far. *)
Definition broadcast_body (data : Payload) (ok : Conn -> bool)
    (st : Registry F * list (WriteCall Payload)) (conn : Conn)
    : Registry F * list (WriteCall Payload) :=
  match st.1 !! conn with
  | None => st
  | Some entity =>
      if negb (Connected entity) then st
      else if ok conn then (st.1, st.2 ++ [(conn, data, true)])
      else (<[conn := setConnected entity false]> st.1,
            st.2 ++ [(conn, data, false)])
  end.

Definition physics_loop (order : list Conn) (clients : Registry F) : Registry F :=
  foldl physics_body clients order.

Definition snapshot_loop (order : list Conn) (clients : Registry F)
    : list (Entity F) :=
  foldl (snapshot_body clients) [] order.

Definition broadcast_loop (data : Payload) (ok : Conn -> bool)
    (order : list Conn) (clients : Registry F)
    : Registry F * list (WriteCall Payload) :=
  foldl (broadcast_body data ok) (clients, []) order.

(** Lines 128-171, the body of [for range ticker.C]: the value received
    from the ticker channel is discarded by the source and so is [fired]
    here.  The result is the registry and the writes of this tick. *)
Definition tick (fired : Z) (env : TickEnv) (clients : Registry F)
    : Registry F * list (WriteCall Payload) :=
  let clients := physics_loop (physicsOrder env) clients in
  let entities := snapshot_loop (snapshotOrder env) clients in
  let update := {| Entities := entities |} in
  match Marshal update with
  | None => (clients, [])
  | Some data =>
      broadcast_loop data (writeOk env) (broadcastOrder env) clients
  end.

(** The critical sections of the program.  They all run under
    [clientsMu], so an execution of the goroutines is a sequence of them. *)
Inductive event :=
| Register (conn : Conn) (now : Z) (pos : Vector2 F)
| Unregister (conn : Conn) (entity : Entity F)
| Tick (fired : Z) (env : TickEnv).

Definition step (clients : Registry F) (ev : event) : Registry F :=
  match ev with
  | Register conn now pos => register conn (newEntity now pos) clients
  | Unregister conn entity => unregister conn entity clients
  | Tick fired env => (tick fired env clients).1
  end.

Definition run (evs : list event) (clients : Registry F) : Registry F :=
  foldl step clients evs.

(** [func broadcastUpdates()], for the first firings of the ticker and as
    long as no session registers or leaves in between: the registry after
    these ticks and the writes made, tick by tick. *)
Fixpoint broadcastUpdates (firings : list (Z * TickEnv)) (clients : Registry F)
    : Registry F * list (list (WriteCall Payload)) :=
  match firings with
  | [] => (clients, [])
  | (fired, env) :: rest =>
      let '(clients, calls) := tick fired env clients in
      let '(clients, more) := broadcastUpdates rest clients in
      (clients, calls :: more)
  end.

(** [func wsHandler], after a successful upgrade: the two critical
    sections of one handler in program order, for the connection [conn],
    the clock reading [now] and the position [pos] drawn for it.  The
    deferred function works on the handler's own copy of the entity. *)
Definition wsHandler (conn : Conn) (now : Z) (pos : Vector2 F) : list event :=
  let entity := newEntity now pos in
  [Register conn now pos; Unregister conn entity].


End Server.

Arguments event F : clear implicits.

(** ** Vocabulary of the specification *)

Section Vocabulary.

Context {F : Type} `{Float64 F}.

Local Open Scope f64_scope.

Definition vadd (a b : Vector2 F) : Vector2 F :=
  {| X := X a + X b; Y := Y a + Y b |}.

Definition vscale (a : Vector2 F) (k : F) : Vector2 F :=
  {| X := X a * k; Y := Y a * k |}.

(** Section 4.2 of the specification, in its words:
    1. [velocity += Acceleration(position) * dt]
    2. [position += velocity * dt] *)
Definition spec_euler_step (dt : F) (e : Entity F) : Entity F :=
  let velocity := vadd (Velocity e) (vscale (gravitationalAccel (Position e)) dt) in
  let position := vadd (Position e) (vscale velocity dt) in
  {| ID := ID e; Position := position; Velocity := velocity;
     Connected := Connected e |}.

(** What the physics loop does to one registry entry. *)
Definition physics_entity (e : Entity F) : Entity F :=
  if Connected e then integrate e else e.

(** What the broadcast loop does to the entry of [conn], and the call of
    [WriteMessage] it makes for it, if any. *)
Definition broadcast_entity (ok : Conn -> bool) (conn : Conn) (e : Entity F)
    : Entity F :=
  if Connected e && negb (ok conn) then setConnected e false else e.

Definition broadcast_call {Payload : Type} (data : Payload) (ok : Conn -> bool)
    (clients : Registry F) (conn : Conn) : option (WriteCall Payload) :=
  match clients !! conn with
  | Some e => if Connected e then Some (conn, data, ok conn) else None
  | None => None
  end.



End Vocabulary.




(** ** Vocabulary for the further properties *)

(** The handles a trace leaves registered, from those registered before
    it: computed from the session events alone. *)
Definition handlesAfter {F : Type} (evs : list (event F)) (handles : gset Conn)
    : gset Conn :=
  foldl (fun d ev =>
           match ev with
           | Register conn _ _ => {[conn]} ∪ d
           | Unregister conn _ => d ∖ {[conn]}
           | Tick _ _ => d
           end) handles evs.

(** Target and outcome of a call of [WriteMessage], without the payload. *)
Definition callOutcome {Payload : Type} (call : WriteCall Payload) : Conn * bool :=
  (call.1.1, call.2).

(** A tick whose loops each visit every key once and whose writes all
    succeed. *)
Definition healthy {F : Type} (env : TickEnv) (clients : Registry F) : Prop :=
  rangeOrder (physicsOrder env) clients
  /\ rangeOrder (broadcastOrder env) clients
  /\ forall conn, writeOk env conn = true.

(** Relations between an entry before and after some ticks: same id and no
    reconnection; untouched if it was disconnected; same id, position and
    velocity; a property of entities that is kept. *)
Definition sameSession {F : Type} (e e' : Entity F) : Prop :=
  ID e' = ID e /\ (Connected e' = true -> Connected e = true).

Definition frozenIfGone {F : Type} (e e' : Entity F) : Prop :=
  Connected e = false -> e' = e.

Definition sameKinematics {F : Type} (e e' : Entity F) : Prop :=
  ID e' = ID e /\ Position e' = Position e /\ Velocity e' = Velocity e.

Definition keeps {F : Type} (P : Entity F -> Prop) (e e' : Entity F) : Prop :=
  P e -> P e'.



(** ** Concrete data for the binary64 instance *)

Set Warnings "-inexact-float".

Module Scenario.

Local Open Scope float_scope.

(** The scenario of the specification: position [(10, 0)], velocity
    [(0, 0)]. *)
Definition position : Vector2 float := {| X := 10; Y := 0 |}.

Definition body : Entity float :=
  {| ID := "1700000000000000001";
     Position := position;
     Velocity := {| X := 0; Y := 0 |};
     Connected := true |}.

Definition origin : Vector2 float := {| X := 0; Y := 0 |}.

(** A second body, on the other side of the star. *)
Definition other : Entity float :=
  {| ID := "1700000000000000002";
     Position := {| X := -30; Y := 40 |};
     Velocity := {| X := 0; Y := 0 |};
     Connected := true |}.

(** A body whose position is not a number. *)
Definition lost : Entity float :=
  {| ID := "1700000000000000003";
     Position := {| X := nan; Y := 0 |};
     Velocity := {| X := 0; Y := 0 |};
     Connected := true |}.

(** Two sessions, at the addresses [1] and [2]. *)
Definition clients : Registry float := <[2%positive := other]> (<[1%positive := body]> ∅).

Definition clientsLost : Registry float := <[2%positive := lost]> (<[1%positive := body]> ∅).

(** A tick whose loops visit [2] before [1] and in which the write to
    session [2] fails. *)
Definition env : TickEnv :=
  {| physicsOrder := [2; 1]%positive;
     snapshotOrder := [1; 2]%positive;
     broadcastOrder := [2; 1]%positive;
     writeOk := fun conn => negb (Pos.eqb conn 2) |}.

(** [encoding/json] refuses exactly the [float64] values that JSON cannot
    write, NaN and the infinities; the encoded bytes are left abstract and
    the payload is the list of entities encoded. *)
Definition encodable (x : float) : bool :=
  negb (PrimFloat.is_nan x || PrimFloat.is_infinity x).

Definition encodableEntity (e : Entity float) : bool :=
  encodable (X (Position e)) && encodable (Y (Position e))
  && encodable (X (Velocity e)) && encodable (Y (Velocity e)).

Definition marshalJSON (update : ClientUpdate float) : option (list (Entity float)) :=
  if forallb encodableEntity (Entities update) then Some (Entities update) else None.

(** The payload of the tick [env] on [clients]: the snapshot, in the order
    [1], [2], of the entities after the physics loop. *)
Definition payload : list (Entity float) := [integrate body; integrate other].




End Scenario.

Module Cases.

Local Open Scope float_scope.

(** The registry of [Scenario.clients] after the write to session [2] has
    failed. *)
Definition ghosted : Registry float :=
  <[2%positive := setConnected Scenario.other false]>
    (<[1%positive := Scenario.body]> ∅).

(** A registry whose only session is marked disconnected. *)
Definition allGone : Registry float :=
  <[1%positive := setConnected Scenario.body false]> ∅.

(** The tick of [Scenario.env] with the loops in the opposite orders. *)
Definition envReversed : TickEnv :=
  {| physicsOrder := [1; 2]%positive;
     snapshotOrder := [2; 1]%positive;
     broadcastOrder := [1; 2]%positive;
     writeOk := fun conn => negb (Pos.eqb conn 2) |}.

(** A tick in which every write succeeds. *)
Definition envHealthy : TickEnv :=
  {| physicsOrder := [1; 2]%positive;
     snapshotOrder := [1; 2]%positive;
     broadcastOrder := [2; 1]%positive;
     writeOk := fun _ => true |}.

End Cases.

(** ** The gravity law in exact arithmetic *)

Section ExactLaw.

Local Open Scope R_scope.
















(** In binary64 the law is met up to rounding; at [(3, 4)] even in the
    last bit: the result is the pair of floats nearest to [(-2.4, -3.2)]
    and its computed magnitude is [100 / 5^2]. *)
Example accel_law_binary64 :
  (gravitationalAccel {| X := 3; Y := 4 |} = {| X := -2.4; Y := -3.2 |})%float
  /\ (PrimFloat.sqrt (-2.4 * -2.4 + -3.2 * -3.2) = 100 / (5 * 5))%float.
Proof. split; vm_compute; reflexivity. Qed.


End ExactLaw.

(** ** The loops of one tick *)

Section Loops.

Context {F : Type} `{Float64 F} {Payload : Type}.

Implicit Types (clients : Registry F) (order : list Conn) (conn c : Conn).
Implicit Types (st : Registry F * list (WriteCall Payload)).

Lemma rangeOrder_elem order clients c :
  rangeOrder order clients -> c ∈ order <-> is_Some (clients !! c).
Proof.
  intros [_ Hdom]. rewrite <- elem_of_dom, <- Hdom. by rewrite elem_of_list_to_set.
Qed.

(** *** Physics loop *)

Lemma physics_body_lookup clients conn c :
  physics_body clients conn !! c
  = if decide (c = conn) then physics_entity <$> clients !! c else clients !! c.
Proof.
  unfold physics_body, physics_entity.
  destruct (decide (c = conn)) as [->|Hne].
  - destruct (clients !! conn) as [e|] eqn:He; simpl; [|by rewrite He].
    destruct (Connected e); simpl; [by rewrite lookup_insert_eq | by rewrite He].
  - destruct (clients !! conn) as [e|]; [|done].
    destruct (Connected e); simpl; [by rewrite lookup_insert_ne | done].
Qed.

Lemma physics_loop_lookup order clients c :
  NoDup order ->
  physics_loop order clients !! c
  = if decide (c ∈ order) then physics_entity <$> clients !! c else clients !! c.
Proof.
  unfold physics_loop. intros Hnd. revert clients.
  induction Hnd as [|a order Ha Hnd IH]; intros clients; simpl.
  - destruct (decide (c ∈ [])) as [Hc|_]; [by apply elem_of_nil in Hc | done].
  - rewrite IH, !physics_body_lookup.
    destruct (decide (c = a)) as [->|Hne].
    + rewrite decide_False by done. rewrite decide_True by left. done.
    + destruct (decide (c ∈ order)) as [Hc|Hc].
      * rewrite decide_True by (by right). done.
      * rewrite decide_False; [done|]. rewrite elem_of_cons. tauto.
Qed.

Lemma physics_loop_range order clients :
  rangeOrder order clients ->
  physics_loop order clients = physics_entity <$> clients.
Proof.
  intros Hr. apply map_eq; intros c.
  rewrite (physics_loop_lookup _ _ _ (proj1 Hr)), lookup_fmap.
  destruct (decide (c ∈ order)) as [Hc|Hc]; [done|].
  destruct (clients !! c) as [e|] eqn:He; [|done].
  exfalso. apply Hc. apply (rangeOrder_elem _ _ _ Hr). by rewrite He.
Qed.

(** An entity that is not connected is skipped, whatever the order. *)
Lemma physics_loop_skips order clients c e :
  clients !! c = Some e -> Connected e = false ->
  physics_loop order clients !! c = Some e.
Proof.
  unfold physics_loop. revert clients.
  induction order as [|a order IH]; intros clients He Hc; simpl; [done|].
  apply IH; [|done].
  rewrite physics_body_lookup. destruct (decide (c = a)); [|done].
  rewrite He; simpl. unfold physics_entity. by rewrite Hc.
Qed.

(** *** Snapshot loop *)

Lemma snapshot_loop_omap order clients :
  snapshot_loop order clients = omap (fun c => clients !! c) order.
Proof.
  unfold snapshot_loop.
  assert (Hgen : forall acc,
    foldl (snapshot_body clients) acc order
    = acc ++ omap (fun c => clients !! c) order).
  { induction order as [|a order IH]; intros acc; simpl.
    - by rewrite app_nil_r.
    - rewrite IH. unfold snapshot_body.
      destruct (clients !! a); [by rewrite <- app_assoc | done]. }
  apply Hgen.
Qed.

Lemma snapshot_loop_elem order clients e :
  rangeOrder order clients ->
  e ∈ snapshot_loop order clients <-> exists c, clients !! c = Some e.
Proof.
  intros Hr. rewrite snapshot_loop_omap, list_elem_of_omap. split.
  - intros (c & _ & Hc). by exists c.
  - intros (c & Hc). exists c. split; [|done].
    apply (rangeOrder_elem _ _ _ Hr). by rewrite Hc.
Qed.


(** *** Broadcast loop *)

Lemma broadcast_body_lookup (data : Payload) ok st conn c :
  (broadcast_body data ok st conn).1 !! c
  = if decide (c = conn) then broadcast_entity ok c <$> st.1 !! c else st.1 !! c.
Proof.
  unfold broadcast_body, broadcast_entity.
  destruct (decide (c = conn)) as [->|Hne].
  - destruct (st.1 !! conn) as [e|] eqn:He; simpl; [|by rewrite He].
    destruct (Connected e); simpl; [|by rewrite He].
    destruct (ok conn); simpl; [by rewrite He | by rewrite lookup_insert_eq].
  - destruct (st.1 !! conn) as [e|]; [|done].
    destruct (Connected e); simpl; [|done].
    destruct (ok conn); simpl; [done | by rewrite lookup_insert_ne].
Qed.

Lemma broadcast_body_calls (data : Payload) ok st conn :
  (broadcast_body data ok st conn).2
  = st.2 ++ option_list (broadcast_call data ok st.1 conn).
Proof.
  unfold broadcast_body, broadcast_call.
  destruct (st.1 !! conn) as [e|]; simpl; [|by rewrite app_nil_r].
  destruct (Connected e); simpl; [|by rewrite app_nil_r].
  by destruct (ok conn).
Qed.

Lemma broadcast_fold_lookup (data : Payload) ok order st c :
  NoDup order ->
  (foldl (broadcast_body data ok) st order).1 !! c
  = if decide (c ∈ order) then broadcast_entity ok c <$> st.1 !! c else st.1 !! c.
Proof.
  intros Hnd. revert st.
  induction Hnd as [|a order Ha Hnd IH]; intros st; simpl.
  - destruct (decide (c ∈ [])) as [Hc|_]; [by apply elem_of_nil in Hc | done].
  - rewrite IH, !broadcast_body_lookup.
    destruct (decide (c = a)) as [->|Hne].
    + rewrite decide_False by done. rewrite decide_True by left. done.
    + destruct (decide (c ∈ order)) as [Hc|Hc].
      * rewrite decide_True by (by right). done.
      * rewrite decide_False; [done|]. rewrite elem_of_cons. tauto.
Qed.

Lemma broadcast_fold_calls (data : Payload) ok order st :
  NoDup order ->
  (foldl (broadcast_body data ok) st order).2
  = st.2 ++ omap (broadcast_call data ok st.1) order.
Proof.
  intros Hnd. revert st.
  induction Hnd as [|a order Ha Hnd IH]; intros st; simpl.
  - by rewrite app_nil_r.
  - rewrite IH, broadcast_body_calls, <- app_assoc. f_equal.
    assert (Hext : omap (broadcast_call data ok (broadcast_body data ok st a).1) order
                   = omap (broadcast_call data ok st.1) order).
    { clear IH Hnd. induction order as [|b order IH]; simpl; [done|].
      unfold omap in IH. rewrite IH by (intros Hin; apply Ha; by right).
      unfold broadcast_call at 1 3. rewrite broadcast_body_lookup.
      rewrite decide_False; [done|].
      intros ->. apply Ha. left. }
    rewrite Hext. by destruct (broadcast_call data ok st.1 a).
Qed.

Lemma broadcast_loop_lookup (data : Payload) ok order clients c :
  rangeOrder order clients ->
  (broadcast_loop data ok order clients).1 !! c
  = broadcast_entity ok c <$> clients !! c.
Proof.
  intros Hr. unfold broadcast_loop.
  rewrite (broadcast_fold_lookup _ _ _ _ _ (proj1 Hr)); simpl.
  destruct (decide (c ∈ order)) as [Hc|Hc]; [done|].
  destruct (clients !! c) as [e|] eqn:He; [|done].
  exfalso. apply Hc. apply (rangeOrder_elem _ _ _ Hr). by rewrite He.
Qed.

Lemma broadcast_loop_calls (data : Payload) ok order clients :
  rangeOrder order clients ->
  (broadcast_loop data ok order clients).2
  = omap (broadcast_call data ok clients) order.
Proof.
  intros Hr. unfold broadcast_loop.
  by rewrite (broadcast_fold_calls _ _ _ _ (proj1 Hr)).
Qed.

(** The sessions written to are exactly the connected ones, each with the
    payload of this tick and the outcome of its own write. *)
Lemma broadcast_loop_call_elem (data : Payload) ok order clients conn d b :
  rangeOrder order clients ->
  (conn, d, b) ∈ (broadcast_loop data ok order clients).2
  <-> (exists e, clients !! conn = Some e /\ Connected e = true)
      /\ d = data /\ b = ok conn.
Proof.
  intros Hr. rewrite (broadcast_loop_calls _ _ _ _ Hr), list_elem_of_omap.
  unfold broadcast_call. split.
  - intros (c & _ & Hc).
    destruct (clients !! c) as [e|] eqn:He; [|done].
    destruct (Connected e) eqn:Hce; [|done].
    injection Hc as -> -> ->. eauto.
  - intros ((e & He & Hce) & -> & ->). exists conn. split.
    + apply (rangeOrder_elem _ _ _ Hr). by rewrite He.
    + by rewrite He, Hce.
Qed.

End Loops.

(** ** One tick *)

Section TickFacts.

Context {F : Type} `{Float64 F} {Payload : Type}.
Variable Marshal : ClientUpdate F -> option Payload.

Implicit Types (clients : Registry F) (order : list Conn) (conn c : Conn).
Implicit Types (env : TickEnv) (fired : Z).

Lemma integrate_spec (e : Entity F) :
  integrate e = spec_euler_step (fconst TimeStep) e.
Proof. reflexivity. Qed.

Lemma physics_entity_Connected (e : Entity F) :
  Connected (physics_entity e) = Connected e.
Proof. unfold physics_entity. by destruct (Connected e) eqn:He. Qed.

Lemma physics_entity_ID (e : Entity F) : ID (physics_entity e) = ID e.
Proof. unfold physics_entity. by destruct (Connected e). Qed.

Lemma broadcast_entity_ID ok c (e : Entity F) : ID (broadcast_entity ok c e) = ID e.
Proof. unfold broadcast_entity. by destruct (Connected e && negb (ok c)). Qed.

Lemma rangeOrder_fmap order clients (f : Entity F -> Entity F) :
  rangeOrder order clients -> rangeOrder order (f <$> clients).
Proof. intros [Hnd Hdom]. split; [done|]. by rewrite dom_fmap_L. Qed.

(** The tick when serialization fails, and when it succeeds. *)
Lemma tick_marshal_error fired env clients :
  Marshal {| Entities := snapshot_loop (snapshotOrder env)
                           (physics_loop (physicsOrder env) clients) |} = None ->
  tick Marshal fired env clients = (physics_loop (physicsOrder env) clients, []).
Proof. intros Hm. unfold tick. by rewrite Hm. Qed.

Lemma tick_marshal_ok fired env clients data :
  Marshal {| Entities := snapshot_loop (snapshotOrder env)
                           (physics_loop (physicsOrder env) clients) |} = Some data ->
  tick Marshal fired env clients
  = broadcast_loop data (writeOk env) (broadcastOrder env)
      (physics_loop (physicsOrder env) clients).
Proof. intros Hm. unfold tick. by rewrite Hm. Qed.

(** Neither loop adds or removes a key or touches an id, whatever the
    orders are. *)
Lemma physics_loop_ID order clients c :
  ID <$> physics_loop order clients !! c = ID <$> clients !! c.
Proof.
  unfold physics_loop. revert clients.
  induction order as [|a order IH]; intros clients; simpl; [done|].
  rewrite IH, physics_body_lookup.
  destruct (decide (c = a)); [|done].
  destruct (clients !! c); simpl; [|done]. by rewrite physics_entity_ID.
Qed.

Lemma broadcast_loop_ID (data : Payload) ok order clients c :
  ID <$> (broadcast_loop data ok order clients).1 !! c = ID <$> clients !! c.
Proof.
  unfold broadcast_loop.
  change clients with ((clients, @nil (WriteCall Payload)).1) at 2.
  generalize (clients, @nil (WriteCall Payload)). clear clients.
  induction order as [|a order IH]; intros st; simpl; [done|].
  rewrite IH, broadcast_body_lookup.
  destruct (decide (c = a)); [|done].
  destruct (st.1 !! c); simpl; [|done]. by rewrite broadcast_entity_ID.
Qed.

Lemma tick_ID fired env clients c :
  ID <$> (tick Marshal fired env clients).1 !! c = ID <$> clients !! c.
Proof.
  unfold tick.
  destruct (Marshal _); simpl; [rewrite broadcast_loop_ID|]; apply physics_loop_ID.
Qed.

Lemma tick_is_Some fired env clients c :
  is_Some ((tick Marshal fired env clients).1 !! c) <-> is_Some (clients !! c).
Proof. rewrite <- !(fmap_is_Some ID). by rewrite tick_ID. Qed.

Lemma tick_dom fired env clients :
  dom (tick Marshal fired env clients).1 = dom clients.
Proof. apply set_eq; intros c. rewrite !elem_of_dom. apply tick_is_Some. Qed.

Lemma physics_loop_dom order clients :
  dom (physics_loop order clients) = dom clients.
Proof.
  apply set_eq; intros c. rewrite !elem_of_dom, <- !(fmap_is_Some ID).
  by rewrite physics_loop_ID.
Qed.

Lemma connected_after_physics clients conn :
  (exists e, (physics_entity <$> clients) !! conn = Some e /\ Connected e = true)
  <-> (exists e, clients !! conn = Some e /\ Connected e = true).
Proof.
  rewrite lookup_fmap. split.
  - intros (e' & He' & Hc'). destruct (clients !! conn) as [e|]; [|done].
    simpl in He'. injection He' as <-. exists e. split; [done|].
    by rewrite <- physics_entity_Connected.
  - intros (e & -> & Hc). exists (physics_entity e). split; [done|].
    by rewrite physics_entity_Connected.
Qed.

(** The writes of a tick that has a payload: one call for each session
    that is connected, carrying the payload, with that session's outcome. *)
Lemma tick_calls_elem fired env clients data conn d b :
  rangeOrder (physicsOrder env) clients ->
  rangeOrder (broadcastOrder env) clients ->
  Marshal {| Entities := snapshot_loop (snapshotOrder env)
                           (physics_loop (physicsOrder env) clients) |} = Some data ->
  (conn, d, b) ∈ (tick Marshal fired env clients).2
  <-> (exists e, clients !! conn = Some e /\ Connected e = true)
      /\ d = data /\ b = writeOk env conn.
Proof.
  intros Hrp Hrb Hm.
  rewrite (tick_marshal_ok _ _ _ _ Hm), (physics_loop_range _ _ Hrp).
  rewrite (broadcast_loop_call_elem _ _ _ _ _ _ _
             (rangeOrder_fmap _ _ physics_entity Hrb)).
  by rewrite connected_after_physics.
Qed.

Lemma broadcast_calls_NoDup (data : Payload) ok order clients :
  NoDup order -> NoDup ((omap (broadcast_call data ok clients) order).*1.*1).
Proof.
  intros Hnd.
  induction Hnd as [|a order Ha Hnd IH]; simpl; [constructor|].
  destruct (broadcast_call data ok clients a) as [call|] eqn:Hcall; [|done].
  simpl. constructor; [|done].
  unfold broadcast_call in Hcall.
  destruct (_ !! a) as [e|]; [|done]. destruct (Connected e); [|done].
  injection Hcall as <-. simpl.
  intros Hin. apply Ha.
  apply list_elem_of_fmap in Hin as (x & -> & Hin).
  apply list_elem_of_fmap in Hin as (y & -> & Hin).
  apply list_elem_of_omap in Hin as (c & Hc & Hy).
  unfold broadcast_call in Hy.
  destruct (_ !! c) as [e'|]; [|done]. destruct (Connected e'); [|done].
  by injection Hy as <-.
Qed.

Lemma tick_calls_NoDup fired env clients data :
  rangeOrder (physicsOrder env) clients ->
  rangeOrder (broadcastOrder env) clients ->
  Marshal {| Entities := snapshot_loop (snapshotOrder env)
                           (physics_loop (physicsOrder env) clients) |} = Some data ->
  NoDup ((tick Marshal fired env clients).2.*1.*1).
Proof.
  intros Hrp Hrb Hm.
  rewrite (tick_marshal_ok _ _ _ _ Hm), (physics_loop_range _ _ Hrp).
  rewrite (broadcast_loop_calls _ _ _ _ (rangeOrder_fmap _ _ physics_entity Hrb)).
  apply broadcast_calls_NoDup, Hrb.
Qed.

(** The entry of a connected session whose write fails. *)
Lemma tick_failed_lookup fired env clients data failed victim :
  rangeOrder (physicsOrder env) clients ->
  rangeOrder (broadcastOrder env) clients ->
  Marshal {| Entities := snapshot_loop (snapshotOrder env)
                           (physics_loop (physicsOrder env) clients) |} = Some data ->
  clients !! failed = Some victim ->
  Connected victim = true ->
  writeOk env failed = false ->
  (tick Marshal fired env clients).1 !! failed
  = Some (setConnected (integrate victim) false).
Proof.
  intros Hrp Hrb Hm Hv Hvc Hfail.
  rewrite (tick_marshal_ok _ _ _ _ Hm), (physics_loop_range _ _ Hrp).
  rewrite (broadcast_loop_lookup _ _ _ _ _ (rangeOrder_fmap _ _ physics_entity Hrb)).
  rewrite lookup_fmap, Hv; simpl.
  unfold broadcast_entity, physics_entity. rewrite Hvc, Hfail; simpl.
  by rewrite Hvc.
Qed.

(** The deferred function of [wsHandler] amounts to a deletion. *)
Lemma unregister_delete conn (entity : Entity F) clients :
  unregister conn entity clients = delete conn clients.
Proof. unfold unregister. apply delete_insert_eq. Qed.


End TickFacts.

(** ** The integrator *)

(** C3. Integration order: one run of the physics loop replaces every
    connected entity by its semi-implicit Euler successor, velocity first
    from the current position, then position from the new velocity; and in
    binary64, from position [(10, 0)] and velocity [(0, 0)] with
    [dt = 0.016], the acceleration is [(-1, -0)], which compares equal to
    [(-1, 0)], the new velocity is [(-0.016, 0)] and the new position is
    [(9.999744, 0)], bit for bit. *)
Theorem physics_tick_semi_implicit_euler :
  (forall (F : Type) (HF : Float64 F) (clients : Registry F)
          (order : list Conn) (conn : Conn) (entity : Entity F),
      rangeOrder order clients ->
      clients !! conn = Some entity ->
      Connected entity = true ->
      physics_loop order clients !! conn
      = Some (spec_euler_step (fconst TimeStep) entity))
  /\ (fconst TimeStep = 0.016)%float
  /\ (gravitationalAccel Scenario.position = {| X := -1; Y := -0 |})%float
  /\ (Y (gravitationalAccel Scenario.position) =? 0)%float = true
  /\ (Velocity (integrate Scenario.body) = {| X := -0.016; Y := 0 |})%float
  /\ (Position (integrate Scenario.body) = {| X := 9.999744; Y := 0 |})%float.
Proof.
  split; [|repeat split; vm_compute; reflexivity].
  intros F HF clients order conn entity Hr He Hc.
  rewrite (physics_loop_range _ _ Hr), lookup_fmap, He; simpl.
  unfold physics_entity. by rewrite Hc.
Qed.

Lemma physics_tick_semi_implicit_euler_witness :
  physics_loop (physicsOrder Scenario.env) Scenario.clients !! 1%positive
  = Some (spec_euler_step (fconst TimeStep) Scenario.body).
Proof.
  apply (proj1 physics_tick_semi_implicit_euler).
  - split; [|vm_compute; reflexivity].
    apply NoDup_cons. split; [|apply NoDup_singleton].
    rewrite list_elem_of_singleton. discriminate.
  - reflexivity.
  - reflexivity.
Defined.

(** The order matters in the scenario: advancing the position with the old
    velocity would leave it at [10]. *)
Lemma scenario_position_moved :
  Prim2SF (X (Position (integrate Scenario.body))) <> Prim2SF 10%float.
Proof. vm_compute. discriminate. Qed.

(** C8 (as stated, refuted). The step the program takes differs from the
    step with [dt = 1/60]: the constant is [0.016]. *)
Lemma timestep_is_not_one_sixtieth :
  ~ (TimeStep == 1 # 60)%Q
  /\ integrate Scenario.body <> spec_euler_step (fconst (1 # 60)) Scenario.body.
Proof.
  split.
  - unfold TimeStep, Qeq; simpl. lia.
  - intros Heq.
    apply (f_equal (fun e => Prim2SF (X (Velocity e)))) in Heq.
    vm_compute in Heq. discriminate.
Qed.

(** C8 (amended). The timestep of the per-tick physics update is the fixed
    constant [0.016] time unit per tick, an approximation of [1/60]; it does
    not depend on the time at which the ticker fired. *)
Theorem timestep_fixed_constant :
  (TimeStep == 16 # 1000)%Q
  /\ (@fconst float ieee TimeStep = 0.016)%float
  /\ (@fconst R exact TimeStep = 16 / 1000)%R
  /\ (forall (F : Type) (HF : Float64 F) (e : Entity F),
        integrate e = spec_euler_step (fconst (16 # 1000)) e)
  /\ (forall (F : Type) (HF : Float64 F) (Payload : Type)
             (Marshal : ClientUpdate F -> option Payload)
             (fired1 fired2 : Z) (env : TickEnv) (clients : Registry F),
        tick Marshal fired1 env clients = tick Marshal fired2 env clients).
Proof.
  split; [reflexivity|].
  split; [vm_compute; reflexivity|].
  split; [unfold TimeStep; simpl; unfold Q2R; simpl; lra|].
  split; reflexivity.
Qed.

(** ** Serialization and write failures *)

(** C6. If serialization of the snapshot fails, the tick makes no write,
    its result is the registry as the physics loop left it (every connected
    entity integrated, nothing rolled back), and the loop goes on: the
    following tick is the ordinary tick on that registry. *)
Theorem marshal_failure_keeps_physics
    (F : Type) (HF : Float64 F) (Payload : Type)
    (Marshal : ClientUpdate F -> option Payload)
    (fired : Z) (env : TickEnv) (clients : Registry F) :
  rangeOrder (physicsOrder env) clients ->
  Marshal {| Entities := snapshot_loop (snapshotOrder env)
                           (physics_loop (physicsOrder env) clients) |} = None ->
  (tick Marshal fired env clients).2 = []
  /\ (tick Marshal fired env clients).1 = physics_entity <$> clients
  /\ (forall conn entity,
        clients !! conn = Some entity -> Connected entity = true ->
        (tick Marshal fired env clients).1 !! conn = Some (integrate entity))
  /\ (forall fired' env',
        broadcastUpdates Marshal [(fired, env); (fired', env')] clients
        = ((tick Marshal fired' env' (physics_entity <$> clients)).1,
           [[]; (tick Marshal fired' env' (physics_entity <$> clients)).2])).
Proof.
  intros Hr Hm.
  rewrite (tick_marshal_error _ _ _ _ Hm); simpl.
  rewrite (physics_loop_range _ _ Hr).
  repeat split.
  - intros conn entity He Hc.
    rewrite lookup_fmap, He; simpl. unfold physics_entity. by rewrite Hc.
  - intros fired' env'. cbn [broadcastUpdates].
    rewrite (tick_marshal_error _ _ _ _ Hm), (physics_loop_range _ _ Hr).
    by destruct (tick Marshal fired' env' (physics_entity <$> clients)).
Qed.

(** C5. Fan-out resilience: when the tick has a payload and the write to
    one connected session fails, [WriteMessage] is still called with that
    payload for every other connected session, once each, and its outcome
    there is that session's own; the sessions written to are exactly the
    connected ones, so the loop ran over all of them. *)
Theorem fanout_continues_after_write_failure
    (F : Type) (HF : Float64 F) (Payload : Type)
    (Marshal : ClientUpdate F -> option Payload)
    (fired : Z) (env : TickEnv) (clients : Registry F)
    (data : Payload) (failed : Conn) (victim : Entity F) :
  rangeOrder (physicsOrder env) clients ->
  rangeOrder (broadcastOrder env) clients ->
  Marshal {| Entities := snapshot_loop (snapshotOrder env)
                           (physics_loop (physicsOrder env) clients) |} = Some data ->
  clients !! failed = Some victim ->
  Connected victim = true ->
  writeOk env failed = false ->
  (forall other entity,
      other <> failed ->
      clients !! other = Some entity ->
      Connected entity = true ->
      (other, data, writeOk env other) ∈ (tick Marshal fired env clients).2)
  /\ NoDup ((tick Marshal fired env clients).2.*1.*1)
  /\ (forall conn d b,
        (conn, d, b) ∈ (tick Marshal fired env clients).2
        <-> (exists e, clients !! conn = Some e /\ Connected e = true)
            /\ d = data /\ b = writeOk env conn)
  /\ (failed, data, false) ∈ (tick Marshal fired env clients).2.
Proof.
  intros Hrp Hrb Hm Hv Hvc Hfail.
  pose proof (fun conn d b =>
    tick_calls_elem Marshal fired env clients data conn d b Hrp Hrb Hm) as Hcalls.
  split; [|split; [|split]].
  - intros other entity _ He Hc. apply Hcalls. eauto.
  - by apply (tick_calls_NoDup Marshal fired env clients data).
  - apply Hcalls.
  - rewrite <- Hfail. apply Hcalls. eauto.
Qed.

(** ** Sessions *)

Section Sessions.

Context {F : Type} `{Float64 F} {Payload : Type}.
Variable Marshal : ClientUpdate F -> option Payload.

Implicit Types (clients : Registry F) (conn c : Conn) (evs : list (event F)).

(** A critical section other than the deferred function of the session
    itself leaves the session in the registry. *)
Lemma step_keeps clients ev c :
  is_Some (clients !! c) ->
  (forall e, ev <> Unregister c e) ->
  is_Some (step Marshal clients ev !! c).
Proof.
  intros Hc Hev. destruct ev as [conn now pos|conn entity|fired env]; simpl.
  - unfold register. destruct (decide (conn = c)) as [->|Hne].
    + rewrite lookup_insert_eq. eauto.
    + by rewrite lookup_insert_ne.
  - rewrite unregister_delete. rewrite lookup_delete_ne; [done|].
    intros ->. by apply (Hev entity).
  - by apply tick_is_Some.
Qed.

Lemma run_keeps evs clients c :
  is_Some (clients !! c) ->
  (forall e, Unregister c e ∉ evs) ->
  is_Some (run Marshal evs clients !! c).
Proof.
  unfold run. revert clients.
  induction evs as [|ev evs IH]; intros clients Hc Hevs; simpl; [done|].
  apply IH.
  - apply step_keeps; [done|].
    intros e ->. apply (Hevs e). left.
  - intros e Hin. apply (Hevs e). by right.
Qed.





(** A session that has come and gone has left nothing under its handle. *)
Lemma wsHandler_leaves conn now pos clients :
  run Marshal (wsHandler conn now pos) clients = delete conn clients.
Proof.
  unfold wsHandler, run; simpl.
  rewrite unregister_delete. unfold register. apply delete_insert_eq.
Qed.

End Sessions.

(** C4. Ghost window: a connected session whose write fails in a tick is
    kept in the registry with [Connected = false] (and this tick's physics);
    the other connected sessions are still written to; the entity is in the
    snapshot of the next tick; it stays in the registry through every
    sequence of critical sections that does not contain the deferred
    function of its own handler, and that function removes it. *)
Theorem write_failure_marks_but_keeps_entity
    (F : Type) (HF : Float64 F) (Payload : Type)
    (Marshal : ClientUpdate F -> option Payload)
    (fired : Z) (env : TickEnv) (clients : Registry F)
    (data : Payload) (failed : Conn) (victim : Entity F) :
  rangeOrder (physicsOrder env) clients ->
  rangeOrder (broadcastOrder env) clients ->
  Marshal {| Entities := snapshot_loop (snapshotOrder env)
                           (physics_loop (physicsOrder env) clients) |} = Some data ->
  clients !! failed = Some victim ->
  Connected victim = true ->
  writeOk env failed = false ->
  (tick Marshal fired env clients).1 !! failed
    = Some (setConnected (integrate victim) false)
  /\ (forall other entity,
        other <> failed ->
        clients !! other = Some entity ->
        Connected entity = true ->
        (other, data, writeOk env other) ∈ (tick Marshal fired env clients).2)
  /\ (forall env',
        rangeOrder (snapshotOrder env') (tick Marshal fired env clients).1 ->
        setConnected (integrate victim) false
        ∈ snapshot_loop (snapshotOrder env')
            (physics_loop (physicsOrder env') (tick Marshal fired env clients).1))
  /\ (forall evs,
        (forall e, Unregister failed e ∉ evs) ->
        is_Some (run Marshal evs (tick Marshal fired env clients).1 !! failed))
  /\ (forall e,
        step Marshal (tick Marshal fired env clients).1 (Unregister failed e)
          !! failed = None).
Proof.
  intros Hrp Hrb Hm Hv Hvc Hfail.
  pose proof (tick_failed_lookup Marshal fired env clients data failed victim
                Hrp Hrb Hm Hv Hvc Hfail) as Hghost.
  split; [done|]. split; [|split; [|split]].
  - intros other entity _ He Hc.
    apply (tick_calls_elem Marshal fired env clients data); eauto.
  - intros env' [Hnd Hdom].
    apply snapshot_loop_elem.
    + split; [done|]. by rewrite physics_loop_dom.
    + exists failed. by apply physics_loop_skips.
  - intros evs Hevs. apply run_keeps; [|done]. by rewrite Hghost.
  - intros e. simpl. rewrite unregister_delete. apply lookup_delete_eq.
Qed.


(** ** Registration *)

Section Registration.

Local Open Scope R_scope.


Lemma randomPosition_polar (u1 u2 : R) :
  randomPosition u1 u2
  = {| X := (10 + u2 * 90) * cos (u1 * 2 * PI);
       Y := (10 + u2 * 90) * sin (u1 * 2 * PI) |}.
Proof.
  unfold randomPosition; simpl.
  change (MaxDistance - MinDistance)%Q with (90 # 1)%Q.
  unfold MinDistance, Q2R; simpl.
  by rewrite !Rinv_1, !Rmult_1_r.
Qed.


(** Every angle of [[0, 2π)] and radius of [[10, 100)] is the image of
    exactly the draws [theta / 2π] and [(r - 10) / 90], both in [[0, 1)]:
    angle and radius are affine in the draws. *)
Lemma randomPosition_onto (theta r : R) :
  0 <= theta < 2 * PI -> 10 <= r < 100 ->
  0 <= theta / (2 * PI) < 1 /\ 0 <= (r - 10) / 90 < 1
  /\ randomPosition (theta / (2 * PI)) ((r - 10) / 90)
     = {| X := r * cos theta; Y := r * sin theta |}.
Proof.
  intros Ht Hr. pose proof PI_RGT_0 as Hpi.
  split; [|split].
  - split.
    + apply Rmult_le_pos; [lra|]. apply Rlt_le, Rinv_0_lt_compat. lra.
    + apply Rmult_lt_reg_r with (2 * PI); [lra|]. field_simplify; lra.
  - lra.
  - rewrite randomPosition_polar.
    replace (10 + (r - 10) / 90 * 90) with r by lra.
    replace (theta / (2 * PI) * 2 * PI) with theta by (field; lra).
    reflexivity.
Qed.


End Registration.

(** ** Binary64: the divisors of [gravitationalAccel] *)

(** The facts below are read off the specification of the primitive floats
    ([SpecFloat]): a product is rounded by two right shifts to the working
    precision, and such a shift cannot lose a mantissa whose value is above
    the subnormal range. *)

Section Binary64.

Local Open Scope Z_scope.

Lemma shr_1_m mrs : 0 <= shr_m mrs -> shr_m (shr_1 mrs) = shr_m mrs / 2.
Proof.
  destruct mrs as [m r s]; simpl. intros Hm.
  destruct m as [|[p|p|]|p]; cbn [shr_1 shr_m]; try lia; try reflexivity.
  - apply (Z.div_unique (Zpos p~1) 2 (Zpos p) 1); lia.
  - apply (Z.div_unique (Zpos p~0) 2 (Zpos p) 0); lia.
Qed.

Lemma iter_shr_1_m p : forall mrs,
  0 <= shr_m mrs -> shr_m (SpecFloat.iter_pos shr_1 p mrs) = shr_m mrs / 2 ^ Zpos p.
Proof.
  induction p as [p IH|p IH|]; intros mrs Hm; simpl SpecFloat.iter_pos.
  - assert (H1 : 0 <= shr_m (shr_1 mrs)) by (rewrite shr_1_m by lia; apply Z.div_pos; lia).
    assert (H2 : 0 <= shr_m (SpecFloat.iter_pos shr_1 p (shr_1 mrs)))
      by (rewrite IH by lia; apply Z.div_pos; lia).
    rewrite IH, IH, shr_1_m by lia.
    rewrite !Z.div_div by lia. f_equal.
    rewrite Pos2Z.inj_xI, Z.pow_add_r, Z.pow_mul_r by lia.
    change (2 ^ 1) with 2. change (2 ^ 2) with 4.
    replace (2 ^ Zpos p * 2 ^ Zpos p) with ((2 ^ Zpos p) ^ 2) by (simpl; lia).
    rewrite <- Z.pow_mul_r by lia. rewrite (Z.mul_comm (Zpos p) 2), Z.pow_mul_r by lia.
    change (2 ^ 2) with 4. lia.
  - assert (H2 : 0 <= shr_m (SpecFloat.iter_pos shr_1 p mrs))
      by (rewrite IH by lia; apply Z.div_pos; lia).
    rewrite IH, IH by lia.
    rewrite !Z.div_div by lia. f_equal.
    rewrite Pos2Z.inj_xO, <- Z.pow_add_r by lia. f_equal. lia.
  - rewrite shr_1_m by lia. reflexivity.
Qed.

Lemma digits2_pos_bounds (m : positive) :
  2 ^ (Zpos (digits2_pos m) - 1) <= Zpos m < 2 ^ Zpos (digits2_pos m).
Proof.
  induction m as [m IH|m IH|]; simpl digits2_pos.
  - rewrite Pos2Z.inj_succ, (Pos2Z.inj_xI m).
    replace (Z.succ (Zpos (digits2_pos m)) - 1) with (Z.succ (Zpos (digits2_pos m) - 1)) by lia.
    rewrite !Z.pow_succ_r by lia.
    generalize dependent (2 ^ (Zpos (digits2_pos m) - 1)).
    generalize (2 ^ Zpos (digits2_pos m)). lia.
  - rewrite Pos2Z.inj_succ, (Pos2Z.inj_xO m).
    replace (Z.succ (Zpos (digits2_pos m)) - 1) with (Z.succ (Zpos (digits2_pos m) - 1)) by lia.
    rewrite !Z.pow_succ_r by lia.
    generalize dependent (2 ^ (Zpos (digits2_pos m) - 1)).
    generalize (2 ^ Zpos (digits2_pos m)). lia.
  - simpl. lia.
Qed.

Lemma Zdigits2_bounds (m : Z) :
  0 < m -> 2 ^ (Zdigits2 m - 1) <= m < 2 ^ Zdigits2 m.
Proof. destruct m as [|p|p]; try lia. intros _. apply digits2_pos_bounds. Qed.

Lemma Zdigits2_pos (m : Z) : 0 < m -> 0 < Zdigits2 m.
Proof. destruct m; simpl; lia. Qed.

(** A lower bound on the number of digits from a lower bound on the value. *)
Lemma Zdigits2_lower (m k : Z) :
  0 <= k -> 2 ^ k <= m -> k < Zdigits2 m.
Proof.
  intros Hk Hm.
  assert (Hpos : 0 < m) by (pose proof (Z.pow_pos_nonneg 2 k); lia).
  destruct (Zdigits2_bounds m Hpos) as [_ Hup].
  destruct (Z.lt_ge_cases k (Zdigits2 m)) as [?|Hge]; [done|].
  pose proof (Z.pow_le_mono_r 2 (Zdigits2 m) k). lia.
Qed.

(** Shifting to the working precision keeps a positive mantissa positive as
    long as the number is above the subnormal range. *)
Lemma shr_fexp_positive m e l :
  0 < m -> -1021 <= Zdigits2 m + e ->
  0 < shr_m (shr_fexp FloatOps.prec FloatOps.emax m e l).1
  /\ -1021 <= Zdigits2 (shr_m (shr_fexp FloatOps.prec FloatOps.emax m e l).1) + (shr_fexp FloatOps.prec FloatOps.emax m e l).2.
Proof.
  intros Hm He.
  unfold shr_fexp, fexp, emin, FloatOps.emax, FloatOps.prec.
  pose proof (Zdigits2_bounds m Hm) as [Hlo Hup].
  pose proof (Zdigits2_pos m Hm) as Hd.
  rewrite Z.max_l by lia.
  assert (Hrec : shr_m (shr_record_of_loc m l) = m) by (by destruct l as [|[]]).
  unfold shr.
  destruct (Zdigits2 m + e - 53 - e) as [|n|n] eqn:Hn; cbn [fst snd]; rewrite ?Hrec; try lia.
  rewrite iter_shr_1_m by lia. rewrite Hrec.
  assert (Hn' : Zpos n = Zdigits2 m - 53) by lia.
  assert (Hq : 2 ^ 52 <= m / 2 ^ Zpos n).
  { apply Z.div_le_lower_bound; [apply Z.pow_pos_nonneg; lia|].
    rewrite <- Z.pow_add_r by lia.
    replace (Zpos n + 52) with (Zdigits2 m - 1) by lia. exact Hlo. }
  split.
  - pose proof (Z.pow_pos_nonneg 2 52). lia.
  - pose proof (Zdigits2_lower _ 52 ltac:(lia) Hq). lia.
Qed.

Lemma round_nearest_even_ge m l : m <= round_nearest_even m l.
Proof. destruct l as [|[]]; simpl; try lia. destruct (Z.even m); lia. Qed.

Lemma Zdigits2_mono m1 m2 : 0 < m1 -> m1 <= m2 -> Zdigits2 m1 <= Zdigits2 m2.
Proof.
  intros H1 H12.
  pose proof (Zdigits2_bounds m1 H1) as [Hlo _].
  pose proof (Zdigits2_pos m1 H1).
  pose proof (Zdigits2_lower m2 (Zdigits2 m1 - 1) ltac:(lia) ltac:(lia)). lia.
Qed.

(** Rounding a positive mantissa above the subnormal range never gives a
    zero. *)
Lemma binary_round_aux_nonzero sx (m : positive) e l s :
  -1021 <= Zdigits2 (Zpos m) + e ->
  binary_round_aux FloatOps.prec FloatOps.emax sx (Zpos m) e l <> S754_zero s.
Proof.
  intros He. unfold binary_round_aux.
  destruct (shr_fexp_positive (Zpos m) e l ltac:(lia) He) as [Hm1 He1].
  destruct (shr_fexp FloatOps.prec FloatOps.emax (Zpos m) e l) as [mrs' e'] eqn:E1.
  cbn [fst snd] in Hm1, He1.
  set (m1 := round_nearest_even (shr_m mrs') (loc_of_shr_record mrs')).
  assert (Hge : shr_m mrs' <= m1) by apply round_nearest_even_ge.
  assert (Hm1' : 0 < m1) by lia.
  assert (He1' : -1021 <= Zdigits2 m1 + e').
  { pose proof (Zdigits2_mono _ _ Hm1 Hge). lia. }
  destruct (shr_fexp_positive m1 e' loc_Exact Hm1' He1') as [Hm2 _].
  destruct (shr_fexp FloatOps.prec FloatOps.emax m1 e' loc_Exact) as [mrs'' e''].
  cbn [fst] in Hm2.
  destruct (shr_m mrs'') as [|m2|m2]; try lia.
  by destruct (e'' <=? FloatOps.emax - FloatOps.prec).
Qed.

(** The square of a binary64 number that is not below [0.1] is not a zero. *)
Lemma mul_self_nonzero (r : float) :
  (r <? 0.1)%float = false -> (r * r =? 0)%float = false.
Proof.
  rewrite FloatAxioms.ltb_spec, FloatAxioms.eqb_spec, FloatAxioms.mul_spec.
  change (Prim2SF 0.1) with (S754_finite false 7205759403792794 (-56)).
  change (Prim2SF 0) with (S754_zero false).
  destruct (Prim2SF r) as [[]|[]| |[] m e];
    try (by cbv [SFltb SFeqb SFcompare SF64mul SFmul xorb]).
  unfold SFltb, SFcompare. intros Hlt.
  assert (He : -56 <= e).
  { destruct (Z.compare_spec e (-56)); first [lia | done]. }
  unfold SF64mul, SFmul. cbn [xorb].
  pose proof (binary_round_aux_nonzero false (m * m) (e + e) loc_Exact) as Hnz.
  destruct (binary_round_aux FloatOps.prec FloatOps.emax false (Z.pos (m * m)) (e + e) loc_Exact)
    as [s'|[]| |[] m' e'] eqn:E; try done.
  exfalso. apply (Hnz s'); [|done].
  pose proof (Zdigits2_pos (Zpos (m * m)) ltac:(lia)). lia.
Qed.

Lemma clamp_nonzero (r : float) :
  (r <? 0.1)%float = false -> (r =? 0)%float = false.
Proof.
  rewrite FloatAxioms.ltb_spec, FloatAxioms.eqb_spec.
  change (Prim2SF 0.1) with (S754_finite false 7205759403792794 (-56)).
  change (Prim2SF 0) with (S754_zero false).
  by destruct (Prim2SF r) as [[]|[]| |[] m e].
Qed.

End Binary64.

(** C10. [gravitationalAccel] is a total function on binary64 pairs; at the
    origin it returns a zero vector (both components are the zero [-0],
    equal to [0] in the sense of [==]), not a NaN or an infinity; and for
    every input both divisions divide by the clamped radius or its square,
    neither of which is a zero: the clamped radius is never below [0.1]. *)
Theorem gravitationalAccel_total_no_zero_divisor :
  (gravitationalAccel Scenario.origin = {| X := -0; Y := -0 |})%float
  /\ (X (gravitationalAccel Scenario.origin) =? 0)%float = true
  /\ (Y (gravitationalAccel Scenario.origin) =? 0)%float = true
  /\ (clampedRadius Scenario.origin = 0.1)%float
  /\ (forall pos : Vector2 float,
        (gravitationalAccel pos
         = {| X := -100 / (clampedRadius pos * clampedRadius pos)
                   * (X pos / clampedRadius pos);
              Y := -100 / (clampedRadius pos * clampedRadius pos)
                   * (Y pos / clampedRadius pos) |})%float
        /\ (clampedRadius pos <? 0.1)%float = false
        /\ (clampedRadius pos =? 0)%float = false
        /\ (clampedRadius pos * clampedRadius pos =? 0)%float = false).
Proof.
  do 4 (split; [vm_compute; reflexivity|]).
  intros pos.
  assert (Hfloor : (clampedRadius pos <? 0.1)%float = false).
  { unfold clampedRadius. cbn [fltb fconst ieee].
    change (IEEE.of_Q (1 # 10)) with 0.1%float.
    set (r := fsqrt _).
    destruct (r <? 0.1)%float eqn:Hlt; [reflexivity | exact Hlt]. }
  split; [reflexivity|]. split; [exact Hfloor|]. split.
  - by apply clamp_nonzero.
  - by apply mul_self_nonzero.
Qed.

(** ** Instances on concrete data *)

Lemma rangeOrder_check {F : Type} (order : list Conn) (clients : Registry F) :
  bool_decide (NoDup order) = true ->
  bool_decide (list_to_set order =@{gset Conn} dom clients) = true ->
  rangeOrder order clients.
Proof.
  intros Hnd Hdom. split.
  - by apply bool_decide_eq_true in Hnd.
  - by apply bool_decide_eq_true in Hdom.
Qed.




Lemma marshal_failure_keeps_physics_witness :
  (tick Scenario.marshalJSON 0 Scenario.env Scenario.clientsLost).2 = [].
Proof.
  apply (marshal_failure_keeps_physics float ieee _ Scenario.marshalJSON
           0 Scenario.env Scenario.clientsLost).
  - apply rangeOrder_check; vm_compute; reflexivity.
  - vm_compute. reflexivity.
Defined.

Lemma fanout_continues_after_write_failure_witness :
  (1%positive, Scenario.payload, true)
  ∈ (tick Scenario.marshalJSON 0 Scenario.env Scenario.clients).2.
Proof.
  apply (proj1 (fanout_continues_after_write_failure float ieee _
           Scenario.marshalJSON 0 Scenario.env Scenario.clients
           Scenario.payload 2%positive Scenario.other
           ltac:(apply rangeOrder_check; vm_compute; reflexivity)
           ltac:(apply rangeOrder_check; vm_compute; reflexivity)
           ltac:(vm_compute; reflexivity)
           ltac:(reflexivity) ltac:(reflexivity) ltac:(reflexivity))
         1%positive Scenario.body);
    [discriminate | reflexivity | reflexivity].
Defined.

Lemma write_failure_marks_but_keeps_entity_witness :
  (tick Scenario.marshalJSON 0 Scenario.env Scenario.clients).1 !! 2%positive
  = Some (setConnected (integrate Scenario.other) false).
Proof.
  apply (write_failure_marks_but_keeps_entity float ieee _
           Scenario.marshalJSON 0 Scenario.env Scenario.clients
           Scenario.payload 2%positive Scenario.other).
  - apply rangeOrder_check; vm_compute; reflexivity.
  - apply rangeOrder_check; vm_compute; reflexivity.
  - vm_compute. reflexivity.
  - reflexivity.
  - reflexivity.
  - reflexivity.
Defined.




(** * Further properties of the code *)

(** ** Ticks under arbitrary iteration orders *)

Section Related.

Context {F : Type} `{Float64 F} {Payload : Type}.
Variable Marshal : ClientUpdate F -> option Payload.

Implicit Types (clients : Registry F) (order : list Conn) (conn c : Conn).
Implicit Types (st : Registry F * list (WriteCall Payload)).

(** A relation between the entry before and after that both loops respect
    at each step is respected by whole ticks, whatever the orders. *)
Variable Rel : relation (Entity F).
Context `{!Reflexive Rel, !Transitive Rel}.
Hypothesis Rel_physics : forall e, Rel e (physics_entity e).
Hypothesis Rel_broadcast : forall ok c e, Rel e (broadcast_entity ok c e).

Lemma physics_loop_related order clients c :
  option_Forall2 Rel (clients !! c) (physics_loop order clients !! c).
Proof.
  unfold physics_loop. revert clients.
  induction order as [|a order IH]; intros clients; simpl; [reflexivity|].
  etransitivity; [|apply IH].
  rewrite physics_body_lookup. destruct (decide (c = a)); [|reflexivity].
  destruct (clients !! c); constructor. apply Rel_physics.
Qed.

Lemma broadcast_fold_related (data : Payload) ok order st c :
  option_Forall2 Rel (st.1 !! c) ((foldl (broadcast_body data ok) st order).1 !! c).
Proof.
  revert st.
  induction order as [|a order IH]; intros st; simpl; [reflexivity|].
  etransitivity; [|apply IH].
  rewrite broadcast_body_lookup. destruct (decide (c = a)); [|reflexivity].
  destruct (st.1 !! c); constructor. apply Rel_broadcast.
Qed.

Lemma tick_related fired env clients c :
  option_Forall2 Rel (clients !! c) ((tick Marshal fired env clients).1 !! c).
Proof.
  unfold tick. destruct (Marshal _); simpl.
  - etransitivity; [apply physics_loop_related|].
    apply (broadcast_fold_related _ _ _ (_, [])).
  - apply physics_loop_related.
Qed.

Lemma broadcastUpdates_related firings clients c :
  option_Forall2 Rel (clients !! c)
    ((broadcastUpdates Marshal firings clients).1 !! c).
Proof.
  revert clients.
  induction firings as [|[fired env] firings IH]; intros clients;
    cbn [broadcastUpdates]; [reflexivity|].
  pose proof (tick_related fired env clients c) as Ht.
  destruct (tick Marshal fired env clients) as [clients1 calls].
  specialize (IH clients1).
  destruct (broadcastUpdates Marshal firings clients1) as [clients2 more].
  simpl in *. by etransitivity.
Qed.

End Related.

Section MoreTicks.

Context {F : Type} `{Float64 F} {Payload : Type}.
Variable Marshal : ClientUpdate F -> option Payload.

Implicit Types (clients : Registry F) (order : list Conn) (conn c : Conn).
Implicit Types (st : Registry F * list (WriteCall Payload)).

#[local] Instance sameSession_refl : Reflexive (@sameSession F).
Proof. by intros e. Qed.

#[local] Instance sameSession_trans : Transitive (@sameSession F).
Proof. intros e1 e2 e3 [Hid Hc] [Hid' Hc']. split; [congruence | auto]. Qed.

Lemma sameSession_physics (e : Entity F) : sameSession e (physics_entity e).
Proof.
  split; [apply physics_entity_ID | by rewrite physics_entity_Connected].
Qed.

Lemma sameSession_broadcast ok c (e : Entity F) :
  sameSession e (broadcast_entity ok c e).
Proof.
  split; [apply broadcast_entity_ID|].
  unfold broadcast_entity.
  destruct (Connected e) eqn:Hc; [done|]. simpl. by rewrite Hc.
Qed.

#[local] Instance frozenIfGone_refl : Reflexive (@frozenIfGone F).
Proof. by intros e. Qed.

#[local] Instance frozenIfGone_trans : Transitive (@frozenIfGone F).
Proof.
  intros e1 e2 e3 H12 H23 Hc. rewrite <- (H12 Hc). apply H23.
  by rewrite (H12 Hc).
Qed.

Lemma frozenIfGone_physics (e : Entity F) : frozenIfGone e (physics_entity e).
Proof. intros Hc. unfold physics_entity. by rewrite Hc. Qed.

Lemma frozenIfGone_broadcast ok c (e : Entity F) :
  frozenIfGone e (broadcast_entity ok c e).
Proof. intros Hc. unfold broadcast_entity. by rewrite Hc. Qed.

(** The calls of the broadcast loop, in any order, go to sessions that were
    connected when the loop started. *)
Lemma broadcast_fold_targets (data : Payload) ok order st call :
  call ∈ (foldl (broadcast_body data ok) st order).2 ->
  call ∈ st.2 \/ exists e, st.1 !! call.1.1 = Some e /\ Connected e = true.
Proof.
  revert st.
  induction order as [|a order IH]; intros st; simpl; [by left|].
  intros Hin. destruct (IH _ Hin) as [Hold|(e' & He' & Hc')].
  - rewrite broadcast_body_calls in Hold.
    apply elem_of_app in Hold as [Hold|Hnew]; [by left|]. right.
    unfold broadcast_call in Hnew.
    destruct (st.1 !! a) as [e|] eqn:He; [|by apply elem_of_nil in Hnew].
    destruct (Connected e) eqn:Hc; [|by apply elem_of_nil in Hnew].
    apply list_elem_of_singleton in Hnew as ->. simpl. eauto.
  - right. pose proof (broadcast_body_lookup data ok st a call.1.1) as Hl.
    rewrite He' in Hl. destruct (decide (call.1.1 = a)); [|eauto].
    destruct (st.1 !! call.1.1) as [e0|]; [|done].
    simpl in Hl. injection Hl as ->. exists e0. split; [done|].
    by apply (sameSession_broadcast ok call.1.1 e0).
Qed.

Lemma tick_targets fired env clients call :
  call ∈ (tick Marshal fired env clients).2 ->
  exists e, clients !! call.1.1 = Some e /\ Connected e = true.
Proof.
  unfold tick. destruct (Marshal _) as [data|]; simpl;
    [|intros Hin; by apply elem_of_nil in Hin].
  intros Hin.
  apply broadcast_fold_targets in Hin as [Hin|(e' & He' & Hc')];
    [by apply elem_of_nil in Hin|].
  simpl in He'.
  pose proof (physics_loop_related sameSession sameSession_physics
                (physicsOrder env) clients call.1.1) as Hrel.
  rewrite He' in Hrel. inversion Hrel as [e ? [_ Hc] He|]; subst.
  exists e. split; [done | auto].
Qed.

(** X1. The deferred function of the handler leaves no entry under its
    handle and touches no other handle, whatever copy of the entity it
    holds and whether or not the handle was registered; running it again
    changes nothing. *)
Theorem unregister_removes_only_its_handle
    (conn : Conn) (entity entity' : Entity F) clients :
  unregister conn entity clients !! conn = None
  /\ (forall c, c <> conn -> unregister conn entity clients !! c = clients !! c)
  /\ unregister conn entity' (unregister conn entity clients)
     = unregister conn entity clients
  /\ (clients !! conn = None -> unregister conn entity clients = clients).
Proof.
  rewrite !unregister_delete. split; [apply lookup_delete_eq|].
  split; [intros c Hc; by apply lookup_delete_ne|].
  split; [apply delete_delete_eq | apply delete_id].
Qed.

(** X2. A tick, whatever the iteration orders, the result of the
    serialization and the outcomes of the writes, keeps every handle,
    adds none, never changes an id and never turns [Connected] from false
    to true. *)
Theorem tick_keeps_sessions fired env clients c :
  (clients !! c = None -> (tick Marshal fired env clients).1 !! c = None)
  /\ (forall e, clients !! c = Some e ->
        exists e', (tick Marshal fired env clients).1 !! c = Some e'
                   /\ ID e' = ID e
                   /\ (Connected e' = true -> Connected e = true)).
Proof.
  pose proof (tick_related Marshal sameSession sameSession_physics
                sameSession_broadcast fired env clients c) as Hrel.
  split.
  - intros Hc. rewrite Hc in Hrel. by inversion Hrel.
  - intros e He. rewrite He in Hrel.
    inversion Hrel as [? e' [Hid Hc] |]; subst. eauto.
Qed.

(** X3. An entry marked disconnected is frozen: through any number of
    ticks, whatever they are, it stays exactly as it is (no physics, no
    reconnection) and no call of [WriteMessage] is made for its session. *)
Theorem disconnected_entity_is_frozen firings clients c e :
  clients !! c = Some e ->
  Connected e = false ->
  (broadcastUpdates Marshal firings clients).1 !! c = Some e
  /\ (forall calls call,
        calls ∈ (broadcastUpdates Marshal firings clients).2 ->
        call ∈ calls -> call.1.1 <> c).
Proof.
  intros He Hc. split.
  - pose proof (broadcastUpdates_related Marshal frozenIfGone
                  frozenIfGone_physics frozenIfGone_broadcast
                  firings clients c) as Hrel.
    rewrite He in Hrel. inversion Hrel as [? e' Hfrozen |]; subst.
    by rewrite (Hfrozen Hc).
  - revert clients He.
    induction firings as [|[fired env] firings IH]; intros clients He calls call;
      cbn [broadcastUpdates].
    + intros Hin. by apply elem_of_nil in Hin.
    + pose proof (tick_related Marshal frozenIfGone frozenIfGone_physics
                    frozenIfGone_broadcast fired env clients c) as Hrel.
      pose proof (tick_targets fired env clients call) as Htargets.
      destruct (tick Marshal fired env clients) as [clients1 calls1].
      specialize (IH clients1).
      destruct (broadcastUpdates Marshal firings clients1) as [clients2 more].
      simpl in *. rewrite He in Hrel.
      inversion Hrel as [? e' Hfrozen Heq Hl|]; subst.
      assert (He1 : clients1 !! c = Some e) by (by rewrite <- Hl, (Hfrozen Hc)).
      intros Hin Hcall. apply elem_of_cons in Hin as [->|Hin].
      * intros Heq'. destruct (Htargets Hcall) as (e0 & He0 & Hc0).
        rewrite Heq' in He0. congruence.
      * by apply (IH He1 calls call).
Qed.

(** X4. A tick on a registry without a connected entity (the empty
    registry included) changes nothing and writes nothing, whether or not
    the serialization succeeds. *)
Theorem idle_tick_is_a_no_op fired env clients :
  (forall c e, clients !! c = Some e -> Connected e = false) ->
  tick Marshal fired env clients = (clients, []).
Proof.
  intros Hgone.
  assert (Hphys : forall order, physics_loop order clients = clients).
  { unfold physics_loop. induction order as [|a order IH]; simpl; [done|].
    assert (Hbody : physics_body clients a = clients).
    { unfold physics_body. destruct (clients !! a) as [e|] eqn:He; [|done].
      by rewrite (Hgone a e He). }
    by rewrite Hbody. }
  assert (Hcast : forall (data : Payload) order,
            broadcast_loop data (writeOk env) order clients = (clients, [])).
  { intros data. unfold broadcast_loop.
    induction order as [|a order IH]; simpl; [done|].
    assert (Hbody : broadcast_body data (writeOk env) (clients, []) a
                    = (clients, [])).
    { unfold broadcast_body; simpl.
      destruct (clients !! a) as [e|] eqn:He; [|done].
      by rewrite (Hgone a e He). }
    by rewrite Hbody. }
  unfold tick. rewrite Hphys. destruct (Marshal _); [apply Hcast | done].
Qed.

End MoreTicks.

(** ** Iteration order, sessions and healthy ticks *)

Section Orders.

Context {F : Type} `{Float64 F} {Payload : Type}.
Variable Marshal : ClientUpdate F -> option Payload.

Implicit Types (clients : Registry F) (order : list Conn) (conn c : Conn).

Lemma rangeOrder_keys order clients :
  rangeOrder order clients -> order ≡ₚ (map_to_list clients).*1.
Proof.
  intros Hr. apply NoDup_Permutation.
  - apply Hr.
  - apply NoDup_fst_map_to_list.
  - intros c. rewrite (rangeOrder_elem _ _ _ Hr), list_elem_of_fmap. split.
    + intros [e He]. exists (c, e). split; [done|].
      by apply elem_of_map_to_list.
    + intros ([c' e] & -> & Hin). apply elem_of_map_to_list in Hin.
      simpl. by rewrite Hin.
Qed.

Lemma rangeOrder_Permutation order1 order2 clients :
  rangeOrder order1 clients -> rangeOrder order2 clients -> order1 ≡ₚ order2.
Proof.
  intros H1 H2. by rewrite (rangeOrder_keys _ _ H1), (rangeOrder_keys _ _ H2).
Qed.

Lemma lookup_keys_values clients (l : list (Conn * Entity F)) :
  (forall kv, kv ∈ l -> clients !! kv.1 = Some kv.2) ->
  omap (fun c => clients !! c) l.*1 = l.*2.
Proof.
  induction l as [|kv l IH]; intros Hl; simpl; [done|].
  rewrite (Hl kv) by left. simpl. f_equal.
  apply IH. intros kv' Hin. apply Hl. by right.
Qed.

Lemma omap_pointwise {A B : Type} (f g : A -> option B) (l : list A) :
  (forall a, f a = g a) -> omap f l = omap g l.
Proof.
  intros Hfg. induction l as [|a l IH]; simpl; [done|].
  rewrite (Hfg a). destruct (g a); [f_equal|]; apply IH.
Qed.

Lemma callOutcome_omap (f : Conn -> option (WriteCall Payload)) order :
  callOutcome <$> omap f order = omap (fun c => callOutcome <$> f c) order.
Proof.
  induction order as [|a order IH]; simpl; [done|].
  destruct (f a); simpl; [f_equal|]; apply IH.
Qed.

Lemma callOutcome_broadcast_call (d1 d2 : Payload) ok1 ok2 clients c :
  ok1 c = ok2 c ->
  callOutcome <$> broadcast_call d1 ok1 clients c
  = callOutcome <$> broadcast_call d2 ok2 clients c.
Proof.
  intros Hok. unfold broadcast_call.
  destruct (clients !! c) as [e|]; [|done].
  destruct (Connected e); [|done]. simpl. unfold callOutcome; simpl.
  by rewrite Hok.
Qed.

#[local] Instance sameKinematics_refl : Reflexive (@sameKinematics F).
Proof. by intros e. Qed.

#[local] Instance sameKinematics_trans : Transitive (@sameKinematics F).
Proof.
  intros e1 e2 e3 (Hi & Hp & Hv) (Hi' & Hp' & Hv').
  repeat split; congruence.
Qed.

Lemma sameKinematics_broadcast ok c (e : Entity F) :
  sameKinematics e (broadcast_entity ok c e).
Proof. unfold broadcast_entity. by destruct (Connected e && negb (ok c)). Qed.

Lemma healthy_tick fired env clients :
  healthy env clients ->
  (tick Marshal fired env clients).1 = physics_entity <$> clients.
Proof.
  intros (Hrp & Hrb & Hok). unfold tick.
  rewrite (physics_loop_range _ _ Hrp).
  destruct (Marshal _) as [data|]; simpl; [|done].
  apply map_eq; intros c.
  rewrite (broadcast_loop_lookup _ _ _ _ _ (rangeOrder_fmap _ _ physics_entity Hrb)).
  destruct ((physics_entity <$> clients) !! c) as [e|]; [|done].
  simpl. unfold broadcast_entity. by rewrite Hok, andb_false_r.
Qed.

Lemma healthy_fmap env clients (f : Entity F -> Entity F) :
  healthy env clients -> healthy env (f <$> clients).
Proof.
  intros (Hrp & Hrb & Hok). repeat split; try apply rangeOrder_fmap; try done;
    apply Hrp || apply Hrb.
Qed.

(** X5. The snapshot lists every entity of the registry, connected or
    not, once per handle: it is a permutation of the values of the map; and
    the snapshot a tick serializes holds every entity as the physics loop
    left it, with the [Connected] flags from before this tick's writes. *)
Theorem snapshot_lists_every_entity_once order clients :
  rangeOrder order clients ->
  snapshot_loop order clients ≡ₚ (map_to_list clients).*2
  /\ (forall physics,
        rangeOrder physics clients ->
        snapshot_loop order (physics_loop physics clients)
        ≡ₚ physics_entity <$> (map_to_list clients).*2).
Proof.
  assert (Hgen : forall m : Registry F,
            rangeOrder order m -> snapshot_loop order m ≡ₚ (map_to_list m).*2).
  { intros m Hr. rewrite snapshot_loop_omap, (rangeOrder_keys _ _ Hr).
    rewrite lookup_keys_values; [done|].
    intros [c e] Hin. by apply elem_of_map_to_list. }
  intros Hr. split; [by apply Hgen|].
  intros physics Hp.
  rewrite (physics_loop_range _ _ Hp).
  rewrite (Hgen _ (rangeOrder_fmap _ _ physics_entity Hr)).
  rewrite map_to_list_fmap, <- !list_fmap_compose.
  assert (Heq : forall l : list (Conn * Entity F),
            snd ∘ prod_map Datatypes.id physics_entity <$> l
            = physics_entity ∘ snd <$> l)
    by (intros l; apply list_fmap_ext; by intros ? []).
  by rewrite Heq.
Qed.

(** X6. The order in which Go ranges over the map does not show in the
    state: two ticks that differ only in the iteration orders of their
    loops give the same registry after the physics loop, snapshots that are
    permutations of each other and, when the serialization succeeds for
    both or fails for both, the same registry and the same write outcomes
    per session. *)
Theorem tick_independent_of_iteration_order
    fired1 fired2 env1 env2 clients :
  rangeOrder (physicsOrder env1) clients ->
  rangeOrder (physicsOrder env2) clients ->
  rangeOrder (snapshotOrder env1) clients ->
  rangeOrder (snapshotOrder env2) clients ->
  rangeOrder (broadcastOrder env1) clients ->
  rangeOrder (broadcastOrder env2) clients ->
  (forall c, writeOk env1 c = writeOk env2 c) ->
  physics_loop (physicsOrder env1) clients
    = physics_loop (physicsOrder env2) clients
  /\ snapshot_loop (snapshotOrder env1) (physics_loop (physicsOrder env1) clients)
     ≡ₚ snapshot_loop (snapshotOrder env2) (physics_loop (physicsOrder env2) clients)
  /\ ((is_Some (Marshal {| Entities := snapshot_loop (snapshotOrder env1)
                             (physics_loop (physicsOrder env1) clients) |})
       <-> is_Some (Marshal {| Entities := snapshot_loop (snapshotOrder env2)
                             (physics_loop (physicsOrder env2) clients) |})) ->
      (tick Marshal fired1 env1 clients).1 = (tick Marshal fired2 env2 clients).1
      /\ callOutcome <$> (tick Marshal fired1 env1 clients).2
         ≡ₚ callOutcome <$> (tick Marshal fired2 env2 clients).2).
Proof.
  intros Hp1 Hp2 Hs1 Hs2 Hb1 Hb2 Hok.
  unfold tick.
  rewrite (physics_loop_range _ _ Hp1), (physics_loop_range _ _ Hp2).
  set (moved := physics_entity <$> clients).
  pose proof (rangeOrder_fmap _ _ physics_entity Hb1) as Hb1'.
  pose proof (rangeOrder_fmap _ _ physics_entity Hb2) as Hb2'.
  fold moved in Hb1', Hb2'.
  split; [done|]. split.
  - rewrite !snapshot_loop_omap.
    by rewrite (rangeOrder_Permutation _ _ _ Hs1 Hs2).
  - intros Hsome.
    destruct (Marshal {| Entities := snapshot_loop (snapshotOrder env1) moved |})
      as [d1|];
      destruct (Marshal {| Entities := snapshot_loop (snapshotOrder env2) moved |})
      as [d2|]; simpl.
    + split.
      * apply map_eq; intros c.
        rewrite (broadcast_loop_lookup _ _ _ _ _ Hb1'),
                (broadcast_loop_lookup _ _ _ _ _ Hb2').
        destruct (moved !! c) as [e|]; [|done]. simpl.
        unfold broadcast_entity. by rewrite Hok.
      * rewrite (broadcast_loop_calls _ _ _ _ Hb1'),
                (broadcast_loop_calls _ _ _ _ Hb2'), !callOutcome_omap.
        rewrite (rangeOrder_Permutation _ _ _ Hb1' Hb2').
        rewrite (omap_pointwise _ _ _
                   (fun c => callOutcome_broadcast_call d1 d2 _ _ moved c (Hok c))).
        done.
    + destruct (proj1 Hsome) as [? ?]; [eauto | done].
    + destruct (proj2 Hsome) as [? ?]; [eauto | done].
    + done.
Qed.

(** X7. After a tick the id, position and velocity of an entry are those
    the physics loop gives to that entry alone: they do not depend on the
    other entities, on the order of the broadcast, on the result of the
    serialization or on any outcome of a write. *)
Theorem tick_moves_each_entity_on_its_own fired env clients c e :
  rangeOrder (physicsOrder env) clients ->
  clients !! c = Some e ->
  exists e',
    (tick Marshal fired env clients).1 !! c = Some e'
    /\ ID e' = ID e
    /\ Position e' = Position (physics_entity e)
    /\ Velocity e' = Velocity (physics_entity e).
Proof.
  intros Hrp He.
  assert (Hmoved : physics_loop (physicsOrder env) clients !! c
                   = Some (physics_entity e))
    by (by rewrite (physics_loop_range _ _ Hrp), lookup_fmap, He).
  unfold tick. destruct (Marshal _) as [data|]; simpl.
  - pose proof (broadcast_fold_related sameKinematics sameKinematics_broadcast
                  data (writeOk env) (broadcastOrder env)
                  (physics_loop (physicsOrder env) clients, []) c) as Hrel.
    simpl in Hrel. rewrite Hmoved in Hrel.
    inversion Hrel as [? e' (Hi & Hp & Hv) |]; subst.
    exists e'. rewrite Hi, Hp, Hv, physics_entity_ID. done.
  - exists (physics_entity e). by rewrite physics_entity_ID.
Qed.

(** X8. The set of registered handles after any sequence of critical
    sections is the one computed from its registrations and deregistrations
    alone: ticks, serialization errors and write failures never add or
    remove a handle. *)
Theorem registered_handles_follow_session_events
    (evs : list (event F)) clients :
  dom (run Marshal evs clients) = handlesAfter evs (dom clients).
Proof.
  unfold run, handlesAfter. revert clients.
  induction evs as [|ev evs IH]; intros clients; simpl; [done|].
  rewrite IH. f_equal.
  destruct ev as [conn now pos|conn entity|fired env]; simpl.
  - unfold register. apply dom_insert_L.
  - rewrite unregister_delete. apply dom_delete_L.
  - apply tick_dom.
Qed.

(** X9. As long as every write succeeds, [n] ticks amount to [n] runs of
    the physics step on each entry, whether or not the serializations
    succeed: a connected entity has been integrated [n] times. *)
Theorem healthy_ticks_are_euler_steps firings clients :
  (forall firing, firing ∈ firings -> healthy firing.2 clients) ->
  (broadcastUpdates Marshal firings clients).1
  = (fun e => Nat.iter (length firings) physics_entity e) <$> clients.
Proof.
  revert clients.
  induction firings as [|[fired env] firings IH]; intros clients Hall;
    cbn [broadcastUpdates length].
  - apply map_eq; intros c. rewrite lookup_fmap. simpl.
    by destruct (clients !! c).
  - pose proof (healthy_tick fired env clients (Hall (fired, env) ltac:(left)))
      as Ht.
    destruct (tick Marshal fired env clients) as [clients1 calls].
    simpl in Ht. subst clients1.
    specialize (IH (physics_entity <$> clients)).
    destruct (broadcastUpdates Marshal firings (physics_entity <$> clients))
      as [clients2 more].
    simpl in *. rewrite IH.
    + apply map_eq; intros c. rewrite !lookup_fmap.
      destruct (clients !! c) as [e|]; [|done]. simpl.
      by rewrite <- Nat.iter_succ_r.
    + intros firing Hin. apply healthy_fmap, Hall. by right.
Qed.

End Orders.

(** ** Properties kept along every execution *)

Section Kept.

Context {F : Type} `{Float64 F} {Payload : Type}.
Variable Marshal : ClientUpdate F -> option Payload.
Variable P : Entity F -> Prop.

#[local] Instance keeps_refl : Reflexive (keeps P).
Proof. intros e He. exact He. Qed.

#[local] Instance keeps_trans : Transitive (keeps P).
Proof. intros e1 e2 e3 H12 H23 H1. apply H23, H12, H1. Qed.


End Kept.

(** ** The dynamics in exact arithmetic *)

Section ExactDynamics.

Local Open Scope R_scope.










End ExactDynamics.

(** ** Binary64: symmetry and NaN *)

Section Binary64Signs.

Local Open Scope float_scope.








Lemma Prim2SF_nan : Prim2SF nan = S754_nan.
Proof. reflexivity. Qed.

Lemma mul_nan_l y : nan * y = nan.
Proof. apply Prim2SF_inj. rewrite FloatAxioms.mul_spec, Prim2SF_nan. done. Qed.
Lemma mul_nan_r x : x * nan = nan.
Proof. apply Prim2SF_inj. rewrite FloatAxioms.mul_spec, Prim2SF_nan. by destruct (Prim2SF x). Qed.
Lemma add_nan_l y : nan + y = nan.
Proof. apply Prim2SF_inj. rewrite FloatAxioms.add_spec, Prim2SF_nan. done. Qed.
Lemma add_nan_r x : x + nan = nan.
Proof. apply Prim2SF_inj. rewrite FloatAxioms.add_spec, Prim2SF_nan. by destruct (Prim2SF x) as [[]|[]| |[] ? ?]. Qed.
Lemma div_nan_r x : x / nan = nan.
Proof. apply Prim2SF_inj. rewrite FloatAxioms.div_spec, Prim2SF_nan. by destruct (Prim2SF x). Qed.
Lemma sqrt_nan : sqrt nan = nan.
Proof. reflexivity. Qed.
Lemma ltb_nan_l y : (nan <? y) = false.
Proof. rewrite FloatAxioms.ltb_spec, Prim2SF_nan. done. Qed.


Lemma accel_nan (pos : Vector2 float) :
  X pos = nan \/ Y pos = nan ->
  gravitationalAccel pos = {| X := nan; Y := nan |}.
Proof.
  intros Hnan. unfold gravitationalAccel.
  cbn [X Y fadd fmul fdiv fsqrt fltb fconst ieee].
  assert (Hr : sqrt (X pos * X pos + Y pos * Y pos) = nan).
  { destruct Hnan as [-> | ->].
    - by rewrite mul_nan_l, add_nan_l.
    - by rewrite mul_nan_l, add_nan_r. }
  rewrite Hr, ltb_nan_l, mul_nan_l, div_nan_r.
  by rewrite !mul_nan_l.
Qed.

Lemma integrate_nan (e : Entity float) :
  X (Position e) = nan \/ Y (Position e) = nan ->
  Position (integrate e) = {| X := nan; Y := nan |}
  /\ Velocity (integrate e) = {| X := nan; Y := nan |}.
Proof.
  intros Hnan. unfold integrate. rewrite (accel_nan _ Hnan).
  cbn [X Y Position Velocity fadd fmul fconst ieee].
  by rewrite !mul_nan_l, !add_nan_r.
Qed.

(** X15. In binary64 a NaN coordinate is not caught by the clamp: if a
    coordinate of the position is NaN, the acceleration is NaN in both
    components, one integration step makes both coordinates of the
    position and of the velocity NaN, and they stay NaN through every
    further step. *)
Theorem nan_position_is_absorbing (e : Entity float) (n : nat) :
  X (Position e) = nan \/ Y (Position e) = nan ->
  gravitationalAccel (Position e) = {| X := nan; Y := nan |}
  /\ Position (Nat.iter (S n) integrate e) = {| X := nan; Y := nan |}
  /\ Velocity (Nat.iter (S n) integrate e) = {| X := nan; Y := nan |}.
Proof.
  intros Hnan. split; [by apply accel_nan|].
  induction n as [|n [IHp IHv]]; [by apply integrate_nan|].
  apply (integrate_nan (Nat.iter (S n) integrate e)).
  left. by rewrite IHp.
Qed.

End Binary64Signs.

(** ** Instances of the further properties on concrete data *)

Lemma disconnected_entity_is_frozen_witness :
  (broadcastUpdates Scenario.marshalJSON
     [(0%Z, Scenario.env); (1%Z, Cases.envReversed)] Cases.ghosted).1 !! 2%positive
  = Some (setConnected Scenario.other false).
Proof.
  apply (disconnected_entity_is_frozen Scenario.marshalJSON
           [(0%Z, Scenario.env); (1%Z, Cases.envReversed)] Cases.ghosted
           2%positive (setConnected Scenario.other false));
    reflexivity.
Defined.

Lemma idle_tick_is_a_no_op_witness :
  tick Scenario.marshalJSON 0 Scenario.env Cases.allGone = (Cases.allGone, []).
Proof.
  apply (idle_tick_is_a_no_op Scenario.marshalJSON 0 Scenario.env Cases.allGone).
  intros c e He. unfold Cases.allGone in He.
  apply lookup_insert_Some in He as [[_ <-]|[_ He]]; [reflexivity|].
  by rewrite lookup_empty in He.
Defined.

Lemma snapshot_lists_every_entity_once_witness :
  snapshot_loop [1; 2]%positive Scenario.clients
  ≡ₚ (map_to_list Scenario.clients).*2.
Proof.
  apply (snapshot_lists_every_entity_once [1; 2]%positive Scenario.clients).
  apply rangeOrder_check; vm_compute; reflexivity.
Defined.

Lemma tick_independent_of_iteration_order_witness :
  physics_loop (physicsOrder Scenario.env) Scenario.clients
  = physics_loop (physicsOrder Cases.envReversed) Scenario.clients.
Proof.
  apply (tick_independent_of_iteration_order Scenario.marshalJSON 0 1
           Scenario.env Cases.envReversed Scenario.clients);
    try (apply rangeOrder_check; vm_compute; reflexivity).
  intros c. reflexivity.
Defined.

Lemma tick_moves_each_entity_on_its_own_witness :
  exists e',
    (tick Scenario.marshalJSON 0 Scenario.env Scenario.clients).1 !! 2%positive
    = Some e'
    /\ ID e' = ID Scenario.other
    /\ Position e' = Position (physics_entity Scenario.other)
    /\ Velocity e' = Velocity (physics_entity Scenario.other).
Proof.
  apply (tick_moves_each_entity_on_its_own Scenario.marshalJSON 0
           Scenario.env Scenario.clients 2%positive Scenario.other).
  - apply rangeOrder_check; vm_compute; reflexivity.
  - reflexivity.
Defined.

Lemma healthy_ticks_are_euler_steps_witness :
  (broadcastUpdates Scenario.marshalJSON
     [(0%Z, Cases.envHealthy); (1%Z, Cases.envHealthy)] Scenario.clients).1
  = (fun e => Nat.iter 2 physics_entity e) <$> Scenario.clients.
Proof.
  apply (healthy_ticks_are_euler_steps Scenario.marshalJSON
           [(0%Z, Cases.envHealthy); (1%Z, Cases.envHealthy)] Scenario.clients).
  intros firing Hin.
  assert (Henv : firing.2 = Cases.envHealthy).
  { apply elem_of_cons in Hin as [->|Hin]; [reflexivity|].
    apply list_elem_of_singleton in Hin as ->. reflexivity. }
  rewrite Henv. split; [|split].
  - apply rangeOrder_check; vm_compute; reflexivity.
  - apply rangeOrder_check; vm_compute; reflexivity.
  - intros conn. reflexivity.
Defined.



Lemma nan_position_is_absorbing_witness :
  gravitationalAccel (Position Scenario.lost)
  = {| X := PrimFloat.nan; Y := PrimFloat.nan |}.
Proof.
  apply (nan_position_is_absorbing Scenario.lost 0).
  left. reflexivity.
Defined.
